(** * The books client of [utils/api.js]

    The module holds one constant, [API_URL], and exports one asynchronous
    function, [fetchBooks].  The function awaits the platform's [fetch] on
    a fixed address and hands back the promise of [Response.json()].

    The platform (the transport behind [fetch] and the JSON reader behind
    [json()]) is not part of the repository; it is taken as a parameter,
    the record [Runtime].  Asynchronous code is embedded as a small monad
    of suspended computations, [Async], whose operations are the points at
    which a JavaScript function can interact with the outside: awaiting a
    request, awaiting the parse of a body, reading or assigning a
    module-level binding, returning and throwing. *)

From Stdlib Require Import ZArith String Ascii.
From stdpp Require Import gmap strings list.

Local Open Scope string_scope.
Local Open Scope list_scope.
Set Warnings "-register-all".

(** ** Values *)

(** A parsed JSON document.  Numbers are kept to the integers. *)
Inductive JSONValue : Type :=
| JNull
| JBool (b : bool)
| JNumber (n : Z)
| JString (s : string)
| JArray (items : list JSONValue)
| JObject (members : list (string * JSONValue)).

(** What JavaScript throws: an error object with its [name] and
    [message]. *)
Record Error : Type := mkError { name : string; message : string }.

(** A settled promise. *)
Inductive Settled (T : Type) : Type :=
| Fulfilled (v : T)
| Rejected (e : Error).
Arguments Fulfilled {T} v.
Arguments Rejected {T} e.

(** ** The HTTP layer as the client sees it *)

Inductive Method : Type := GET | HEAD | POST | PUT | DELETE | PATCH.

Record Request : Type := mkRequest { method : Method; url : string }.

Record Response : Type := mkResponse { status : Z; body : string }.

(** ** Suspended computations *)

Inductive Async (A : Type) : Type :=
| Return (a : A)
| Throw (e : Error)
| Fetch (req : Request) (k : Settled Response -> Async A)
| Json (res : Response) (k : Settled JSONValue -> Async A)
| GetVar (x : string) (k : option JSONValue -> Async A)
| SetVar (x : string) (v : JSONValue) (k : Async A).
Arguments Return {A} a.
Arguments Throw {A} e.
Arguments Fetch {A} req k.
Arguments Json {A} res k.
Arguments GetVar {A} x k.
Arguments SetVar {A} x v k.

Fixpoint bind {A B : Type} (m : Async A) (f : A -> Async B) : Async B :=
  match m with
  | Return a => f a
  | Throw e => Throw e
  | Fetch req k => Fetch req (fun s => bind (k s) f)
  | Json res k => Json res (fun s => bind (k s) f)
  | GetVar x k => GetVar x (fun o => bind (k o) f)
  | SetVar x v k => SetVar x v (bind k f)
  end.

Notation "x <- m ;; k" := (bind m (fun x => k))
  (at level 100, m at next level, right associativity).

(** [await p] with no surrounding [try]: a fulfilled promise yields its
    value, a rejected one throws its reason out of the function. *)
Definition await {T : Type} (s : Settled T) : Async T :=
  match s with
  | Fulfilled v => Return v
  | Rejected e => Throw e
  end.

(** [await fetch(url)]: called with an address alone, [fetch] issues a
    GET. *)
Definition fetch (u : string) : Async Response :=
  Fetch {| method := GET; url := u |} await.

(** [res.json()], followed to its settlement.  An [async] function that
    returns a promise settles as that promise does. *)
Definition json (res : Response) : Async JSONValue :=
  Json res await.

(** ** The module *)

Definition API_URL : string := "https://your-django-api.com/api/".

(** [fetchBooks] declares no parameter; [args] are the actual arguments
    of a call, which JavaScript lets the caller supply all the same. *)
Definition fetchBooks (args : list JSONValue) : Async JSONValue :=
  res <- fetch (API_URL +:+ "books/") ;;
  json res.

(** ** Running a call *)

(** The platform.  [transport n req] is what becomes of the [n]-th
    request sent since the process started: [None] when no response and
    no failure ever arrives.  [JSON_parse] reads a body. *)
Record Runtime : Type := mkRuntime {
  transport : nat -> Request -> option (Settled Response);
  JSON_parse : string -> Settled JSONValue
}.

(** What a caller can observe of the process: the module-level bindings
    and the requests sent so far. *)
Record State : Type := mkState {
  heap : gmap string JSONValue;
  log : list Request
}.

(** The state of a call's promise. *)
Inductive Outcome (A : Type) : Type :=
| Pending
| Resolved (v : A)
| Failed (e : Error).
Arguments Pending {A}.
Arguments Resolved {A} v.
Arguments Failed {A} e.

Fixpoint run {A : Type} (rt : Runtime) (p : Async A) (st : State)
  : Outcome A * State :=
  match p with
  | Return a => (Resolved a, st)
  | Throw e => (Failed e, st)
  | Fetch req k =>
      let st' := {| heap := heap st; log := log st ++ [req] |} in
      match transport rt (length (log st)) req with
      | None => (Pending, st')
      | Some s => run rt (k s) st'
      end
  | Json res k => run rt (k (JSON_parse rt (body res))) st
  | GetVar x k => run rt (k (heap st !! x)) st
  | SetVar x v k => run rt k {| heap := <[x:=v]> (heap st); log := log st |}
  end.

(** The request every call sends. *)
Definition books_request : Request :=
  {| method := GET; url := API_URL +:+ "books/" |}.

(** The promise of a call, from what became of its request. *)
Definition outcome_of (rt : Runtime) (o : option (Settled Response))
  : Outcome JSONValue :=
  match o with
  | None => Pending
  | Some (Rejected e) => Failed e
  | Some (Fulfilled res) =>
      match JSON_parse rt (body res) with
      | Fulfilled v => Resolved v
      | Rejected e => Failed e
      end
  end.

(** Calls made one after another from the same process. *)
Fixpoint session (rt : Runtime) (calls : list (list JSONValue)) (st : State)
  : list (Outcome JSONValue) * State :=
  match calls with
  | [] => ([], st)
  | args :: rest =>
      let '(o, st1) := run rt (fetchBooks args) st in
      let '(os, st2) := session rt rest st1 in
      (o :: os, st2)
  end.

(** ** Calls in flight together

    JavaScript runs one function at a time and switches only where a
    function awaits.  A call is either ready to take the thread
    ([Running]) or suspended on the request it sent ([Waiting]).  The
    loop keeps the calls, the module-level bindings they share, and the
    requests sent, each with the index of the call that sent it. *)

Inductive Task (A : Type) : Type :=
| Running (p : Async A)
| Waiting (n : nat) (req : Request) (k : Settled Response -> Async A).
Arguments Running {A} p.
Arguments Waiting {A} n req k.

Record Loop : Type := mkLoop {
  tasks : list (Task JSONValue);
  bindings : gmap string JSONValue;
  sent : list (nat * Request)
}.

Definition set_task (i : nat) (t : Task JSONValue) (c : Loop) : Loop :=
  {| tasks := <[i:=t]> (tasks c); bindings := bindings c; sent := sent c |}.

(** Call [i] is given the thread and runs to its next suspension point.
    A call that has settled, or whose response has not arrived, leaves
    the loop as it is. *)
Definition turn (rt : Runtime) (i : nat) (c : Loop) : Loop :=
  match tasks c !! i with
  | None => c
  | Some (Running (Return _)) => c
  | Some (Running (Throw _)) => c
  | Some (Running (Fetch req k)) =>
      {| tasks := <[i:=Waiting (length (sent c)) req k]> (tasks c);
         bindings := bindings c;
         sent := sent c ++ [(i, req)] |}
  | Some (Running (Json res k)) =>
      set_task i (Running (k (JSON_parse rt (body res)))) c
  | Some (Running (GetVar x k)) =>
      set_task i (Running (k (bindings c !! x))) c
  | Some (Running (SetVar x v k)) =>
      {| tasks := <[i:=Running k]> (tasks c);
         bindings := <[x:=v]> (bindings c);
         sent := sent c |}
  | Some (Waiting n req k) =>
      match transport rt n req with
      | None => c
      | Some s => set_task i (Running (k s)) c
      end
  end.

(** A schedule names the call that takes each successive turn. *)
Definition exec (rt : Runtime) (sched : list nat) (c : Loop) : Loop :=
  fold_left (fun c i => turn rt i c) sched c.

(** The calls as they stand when they have just been made. *)
Definition spawn (calls : list (list JSONValue)) (h : gmap string JSONValue)
  : Loop :=
  {| tasks := map (fun args => Running (fetchBooks args)) calls;
     bindings := h;
     sent := [] |}.

Definition promise_of (c : Loop) (i : nat) : option (Outcome JSONValue) :=
  match tasks c !! i with
  | None => None
  | Some (Running (Return v)) => Some (Resolved v)
  | Some (Running (Throw e)) => Some (Failed e)
  | Some _ => Some Pending
  end.

(** Request [n] is the one request call [i] has sent. *)
Definition own (s : list (nat * Request)) (i n : nat) : Prop :=
  s !! n = Some (i, books_request) /\
  forall m r, s !! m = Some (i, r) -> m = n.

(** What is left of [fetchBooks] once its request has settled. *)
Definition after_fetch (s : Settled Response) : Async JSONValue :=
  res <- await s ;; json res.

(** The places a call of [fetchBooks] can be at. *)
Inductive call_at (rt : Runtime) (s : list (nat * Request)) (i : nat)
  : Task JSONValue -> Prop :=
| at_start args :
    (forall m r, s !! m <> Some (i, r)) ->
    call_at rt s i (Running (fetchBooks args))
| at_wait n :
    own s i n ->
    call_at rt s i (Waiting n books_request after_fetch)
| at_response n res :
    own s i n ->
    transport rt n books_request = Some (Fulfilled res) ->
    call_at rt s i (Running (json res))
| at_rejected n e :
    own s i n ->
    transport rt n books_request = Some (Rejected e) ->
    call_at rt s i (Running (Throw e))
| at_parsed n res :
    own s i n ->
    transport rt n books_request = Some (Fulfilled res) ->
    call_at rt s i (Running (await (JSON_parse rt (body res)))).

(** Every call in the loop is at a place of [fetchBooks], and the
    bindings are those the calls were made under. *)
Definition matched (rt : Runtime) (h : gmap string JSONValue) (c : Loop)
  : Prop :=
  bindings c = h /\
  forall i t, tasks c !! i = Some t -> call_at rt (sent c) i t.

(** How far a call has come: suspended on its request (1), holding the
    response (2), settled (3). *)
Definition stage (t : Task JSONValue) : nat :=
  match t with
  | Waiting _ _ _ => 1
  | Running (Json _ _) => 2
  | Running (Return _) => 3
  | Running (Throw _) => 3
  | Running _ => 0
  end.

(** A request carries the path [p] when its address ends with [p] as the
    caller wrote it. *)
Definition carries (p : string) (req : Request) : Prop :=
  suffix (list_ascii_of_string p) (list_ascii_of_string (url req)).

(** ** A platform to run the examples on

    The network is scripted: the [n]-th request gets the [n]-th entry of
    the script, and nothing ever arrives for a request past its end.  The
    reader covers the part of JSON the examples use: literals, integers,
    strings without escapes, arrays and objects. *)
Module Sample.

Definition scripted (replies : list (option (Settled Response)))
  : nat -> Request -> option (Settled Response) :=
  fun n _ => match replies !! n with Some o => o | None => None end.

Definition is_ws (c : ascii) : bool :=
  (Ascii.eqb c " " || Ascii.eqb c "009" || Ascii.eqb c "010"
   || Ascii.eqb c "013")%char.

Fixpoint skip_ws (s : list ascii) : list ascii :=
  match s with
  | c :: r => if is_ws c then skip_ws r else s
  | [] => []
  end.

Definition digit (c : ascii) : option Z :=
  let n := nat_of_ascii c in
  if (48 <=? n)%nat && (n <=? 57)%nat then Some (Z.of_nat (n - 48))
  else None.

Fixpoint read_digits (acc : Z) (s : list ascii) : Z * list ascii :=
  match s with
  | c :: r =>
      match digit c with
      | Some d => read_digits (10 * acc + d) r
      | None => (acc, s)
      end
  | [] => (acc, [])
  end.

(** An integer with no leading zero. *)
Definition read_int (s : list ascii) : option (Z * list ascii) :=
  match s with
  | c :: r =>
      match digit c with
      | Some d =>
          match d, r with
          | 0%Z, c' :: _ =>
              match digit c' with Some _ => None | None => Some (0%Z, r) end
          | _, _ => Some (read_digits d r)
          end
      | None => None
      end
  | [] => None
  end.

(** The characters of a string, after its opening quote. *)
Fixpoint read_string (s : list ascii) : option (string * list ascii) :=
  match s with
  | [] => None
  | c :: r =>
      if Ascii.eqb c "034" then Some (EmptyString, r)
      else if Ascii.eqb c "\" || (nat_of_ascii c <? 32)%nat then None
      else match read_string r with
           | Some (t, r') => Some (String c t, r')
           | None => None
           end
  end.

Fixpoint strip (p : list ascii) (s : list ascii) : option (list ascii) :=
  match p, s with
  | [], _ => Some s
  | a :: p', b :: s' => if Ascii.eqb a b then strip p' s' else None
  | _ :: _, [] => None
  end.

Definition keyword (w : string) (v : JSONValue) (s : list ascii)
  : option (JSONValue * list ascii) :=
  match strip (list_ascii_of_string w) s with
  | Some r => Some (v, r)
  | None => None
  end.

Fixpoint read_value (fuel : nat) (s : list ascii)
  : option (JSONValue * list ascii) :=
  match fuel with
  | O => None
  | S fuel =>
      match skip_ws s with
      | [] => None
      | c :: r =>
          if Ascii.eqb c "n" then keyword "null" JNull (c :: r)
          else if Ascii.eqb c "t" then keyword "true" (JBool true) (c :: r)
          else if Ascii.eqb c "f" then keyword "false" (JBool false) (c :: r)
          else if Ascii.eqb c "034" then
            match read_string r with
            | Some (t, r') => Some (JString t, r')
            | None => None
            end
          else if Ascii.eqb c "[" then
            match skip_ws r with
            | c' :: r' =>
                if Ascii.eqb c' "]" then Some (JArray [], r')
                else match read_items fuel r with
                     | Some (vs, r'') => Some (JArray vs, r'')
                     | None => None
                     end
            | [] => None
            end
          else if Ascii.eqb c "{" then
            match skip_ws r with
            | c' :: r' =>
                if Ascii.eqb c' "}" then Some (JObject [], r')
                else match read_members fuel r with
                     | Some (ms, r'') => Some (JObject ms, r'')
                     | None => None
                     end
            | [] => None
            end
          else if Ascii.eqb c "-" then
            match read_int r with
            | Some (n, r') => Some (JNumber (- n), r')
            | None => None
            end
          else
            match read_int (c :: r) with
            | Some (n, r') => Some (JNumber n, r')
            | None => None
            end
      end
  end
with read_items (fuel : nat) (s : list ascii)
  : option (list JSONValue * list ascii) :=
  match fuel with
  | O => None
  | S fuel =>
      match read_value fuel s with
      | Some (v, r) =>
          match skip_ws r with
          | c :: r' =>
              if Ascii.eqb c "]" then Some ([v], r')
              else if Ascii.eqb c "," then
                match read_items fuel r' with
                | Some (vs, r'') => Some (v :: vs, r'')
                | None => None
                end
              else None
          | [] => None
          end
      | None => None
      end
  end
with read_members (fuel : nat) (s : list ascii)
  : option (list (string * JSONValue) * list ascii) :=
  match fuel with
  | O => None
  | S fuel =>
      match skip_ws s with
      | q :: r =>
          if Ascii.eqb q "034" then
            match read_string r with
            | Some (key, r1) =>
                match skip_ws r1 with
                | c :: r2 =>
                    if Ascii.eqb c ":" then
                      match read_value fuel r2 with
                      | Some (v, r3) =>
                          match skip_ws r3 with
                          | c' :: r4 =>
                              if Ascii.eqb c' "}" then Some ([(key, v)], r4)
                              else if Ascii.eqb c' "," then
                                match read_members fuel r4 with
                                | Some (ms, r5) => Some ((key, v) :: ms, r5)
                                | None => None
                                end
                              else None
                          | [] => None
                          end
                      | None => None
                      end
                    else None
                | [] => None
                end
            | None => None
            end
          else None
      | [] => None
      end
  end.

Definition syntax_error : Error :=
  {| name := "SyntaxError"; message := "Unexpected token in JSON" |}.

Definition network_error : Error :=
  {| name := "TypeError"; message := "Network request failed" |}.

Definition parse (text : string) : Settled JSONValue :=
  match read_value (S (String.length text)) (list_ascii_of_string text) with
  | Some (v, r) =>
      match skip_ws r with
      | [] => Fulfilled v
      | _ :: _ => Rejected syntax_error
      end
  | None => Rejected syntax_error
  end.

Definition runtime (replies : list (option (Settled Response))) : Runtime :=
  {| transport := scripted replies; JSON_parse := parse |}.

(** Bodies are written with ['] where the text has a double quote. *)
Fixpoint dq (s : string) : string :=
  match s with
  | EmptyString => EmptyString
  | String c r => String (if Ascii.eqb c "'" then "034"%char else c) (dq r)
  end.

Definition books_body : string := dq "[{'id':1,'title':'A'}]".

Definition books_value : JSONValue :=
  JArray [JObject [("id", JNumber 1); ("title", JString "A")]].

Definition error_body : string := dq "{'detail':'server error'}".

Definition error_value : JSONValue :=
  JObject [("detail", JString "server error")].

Definition ok (text : string) : option (Settled Response) :=
  Some (Fulfilled {| status := 200; body := text |}).

Definition authors_body : string := dq "[{'id':7,'name':'B'}]".

Definition authors_value : JSONValue :=
  JArray [JObject [("id", JNumber 7); ("name", JString "B")]].

(** Two requests answered with different bodies, and a schedule in which
    the second answer is taken up before the first. *)
Definition two_replies : Runtime :=
  runtime [ok books_body; ok authors_body].

Definition out_of_order : list nat := [0; 1; 1; 1; 0; 0].

Definition initial : State := {| heap := ∅; log := [] |}.

End Sample.

(** * Properties *)

(** ** One call *)

Lemma run_fetchBooks (rt : Runtime) (args : list JSONValue) (st : State) :
  run rt (fetchBooks args) st =
  (outcome_of rt (transport rt (length (log st)) books_request),
   {| heap := heap st; log := log st ++ [books_request] |}).
Proof.
  unfold fetchBooks, fetch, json, outcome_of. cbn.
  fold books_request.
  destruct (transport rt (length (log st)) books_request) as [[res|e]|]; cbn;
    try reflexivity.
  destruct (JSON_parse rt (body res)); reflexivity.
Qed.

(** A call is unfolded to what it makes of the platform's answer. *)
Ltac call_outcome :=
  rewrite run_fetchBooks; cbn [fst snd heap log]; unfold outcome_of.

Example parse_books :
  Sample.parse Sample.books_body = Fulfilled Sample.books_value.
Proof. reflexivity. Qed.

Example parse_plain_text : Sample.parse "error" = Rejected Sample.syntax_error.
Proof. reflexivity. Qed.

(** C1, as the specification words it, fails: called with the path
    [authors/], the request sent is not a GET of the endpoint followed by
    [authors/]. *)
Lemma fetchBooks_path_not_requested :
  log (run (Sample.runtime []) (fetchBooks [JString "authors/"])
         Sample.initial).2
  <> [ {| method := GET; url := API_URL +:+ "authors/" |} ].
Proof. vm_compute. discriminate. Qed.

(** C1, amended: one call sends exactly one request, a GET of the endpoint
    followed by the fixed path [books/], whatever the caller supplies and
    whatever becomes of the request; nothing else is sent and nothing is
    sent again. *)
Theorem fetchBooks_one_request
    (rt : Runtime) (args : list JSONValue) (st : State) :
  log (run rt (fetchBooks args) st).2
  = log st ++ [ {| method := GET; url := API_URL +:+ "books/" |} ].
Proof. rewrite run_fetchBooks. reflexivity. Qed.

(** C2: when the response's body is valid JSON, the call resolves with the
    parsed value itself, whatever its shape. *)
Theorem fetchBooks_resolves_parsed
    (rt : Runtime) (args : list JSONValue) (st : State)
    (res : Response) (v : JSONValue) :
  transport rt (length (log st)) books_request = Some (Fulfilled res) ->
  JSON_parse rt (body res) = Fulfilled v ->
  (run rt (fetchBooks args) st).1 = Resolved v.
Proof.
  intros Hres Hv. call_outcome. rewrite Hres, Hv. reflexivity.
Qed.

(** The array of the specification's example comes back as it is. *)
Lemma fetchBooks_resolves_parsed_witness :
  (run (Sample.runtime [Sample.ok Sample.books_body]) (fetchBooks [])
       Sample.initial).1
  = Resolved (JArray [JObject [("id", JNumber 1); ("title", JString "A")]]).
Proof.
  apply (fetchBooks_resolves_parsed _ _ _
           {| status := 200; body := Sample.books_body |});
    reflexivity.
Defined.

(** C3: the promise is settled from the body alone; the status of the
    response has no part in it.  A body that parses resolves the call
    under any status, 500 included. *)
Theorem fetchBooks_ignores_status
    (rt : Runtime) (args : list JSONValue) (st : State)
    (code : Z) (text : string) :
  transport rt (length (log st)) books_request
    = Some (Fulfilled {| status := code; body := text |}) ->
  (run rt (fetchBooks args) st).1
  = match JSON_parse rt text with
    | Fulfilled v => Resolved v
    | Rejected e => Failed e
    end.
Proof.
  intros Hres. call_outcome. rewrite Hres. reflexivity.
Qed.

Lemma fetchBooks_ignores_status_witness :
  (run (Sample.runtime
          [Some (Fulfilled {| status := 500; body := Sample.error_body |})])
       (fetchBooks []) Sample.initial).1
  = Resolved (JObject [("detail", JString "server error")]).
Proof.
  apply (fetchBooks_ignores_status
           (Sample.runtime
              [Some (Fulfilled {| status := 500; body := Sample.error_body |})])
           [] Sample.initial 500 Sample.error_body).
  reflexivity.
Defined.

(** C4: when a response arrives and its body is not valid JSON, the call
    fails with the reader's error; it resolves with no value at all. *)
Theorem fetchBooks_rejects_unparsable
    (rt : Runtime) (args : list JSONValue) (st : State)
    (res : Response) (e : Error) :
  transport rt (length (log st)) books_request = Some (Fulfilled res) ->
  JSON_parse rt (body res) = Rejected e ->
  (run rt (fetchBooks args) st).1 = Failed e /\
  forall v, (run rt (fetchBooks args) st).1 <> Resolved v.
Proof.
  intros Hres He. call_outcome. rewrite Hres, He.
  split; [reflexivity | discriminate].
Qed.

Lemma fetchBooks_rejects_unparsable_witness :
  (run (Sample.runtime [Sample.ok "error"]) (fetchBooks []) Sample.initial).1
    = Failed Sample.syntax_error /\
  forall v,
    (run (Sample.runtime [Sample.ok "error"]) (fetchBooks []) Sample.initial).1
    <> Resolved v.
Proof.
  apply (fetchBooks_rejects_unparsable _ _ _
           {| status := 200; body := "error" |});
    reflexivity.
Defined.

(** C5: when the transport fails, the call fails; it resolves with no
    value, null included.  The failure is told apart from a failure to
    parse by nothing the client adds: a parse that fails with the same
    error leaves the promise in the same state. *)
Theorem fetchBooks_rejects_transport_failure
    (rt : Runtime) (args : list JSONValue) (st : State) (e : Error) :
  transport rt (length (log st)) books_request = Some (Rejected e) ->
  (run rt (fetchBooks args) st).1 = Failed e /\
  (forall v, (run rt (fetchBooks args) st).1 <> Resolved v) /\
  (forall rt' st' res,
      transport rt' (length (log st')) books_request = Some (Fulfilled res) ->
      JSON_parse rt' (body res) = Rejected e ->
      (run rt' (fetchBooks args) st').1 = (run rt (fetchBooks args) st).1).
Proof.
  intros He.
  assert (Hfail : (run rt (fetchBooks args) st).1 = Failed e).
  { call_outcome. rewrite He. reflexivity. }
  rewrite Hfail. split; [reflexivity | split; [discriminate |]].
  intros rt' st' res Hres He'. call_outcome. rewrite Hres, He'. reflexivity.
Qed.

Lemma fetchBooks_rejects_transport_failure_witness :
  (run (Sample.runtime [Some (Rejected Sample.network_error)])
       (fetchBooks []) Sample.initial).1
  = Failed Sample.network_error.
Proof.
  apply (fetchBooks_rejects_transport_failure
           (Sample.runtime [Some (Rejected Sample.network_error)])
           [] Sample.initial Sample.network_error).
  reflexivity.
Defined.

(** C6, as the specification words it, fails: the path [authors/] handed
    to the call is carried by no request that is sent. *)
Lemma fetchBooks_path_not_passed :
  Forall (fun req => ~ carries "authors/" req)
    (log (run (Sample.runtime []) (fetchBooks [JString "authors/"])
            Sample.initial).2).
Proof.
  rewrite run_fetchBooks. cbn. constructor; [| constructor].
  unfold carries. apply (bool_decide_unpack _). vm_compute. exact I.
Qed.

(** C6, amended: the call takes any string the caller supplies without
    looking at it, and does not hand it on: the one request sent is the
    GET of the endpoint followed by [books/], and the promise is settled
    from the response to that request alone. *)
Theorem fetchBooks_discards_path (rt : Runtime) (p : string) (st : State) :
  log (run rt (fetchBooks [JString p]) st).2
    = log st ++ [ {| method := GET; url := API_URL +:+ "books/" |} ] /\
  (run rt (fetchBooks [JString p]) st).1
    = outcome_of rt (transport rt (length (log st))
                       {| method := GET; url := API_URL +:+ "books/" |}).
Proof. rewrite run_fetchBooks. split; reflexivity. Qed.

(** C9: the arguments of a call are ignored.  Two calls are the same
    computation whatever is passed to them; against the same platform
    they send the same request, to the endpoint followed by [books/],
    and leave the same promise and the same state. *)
Theorem fetchBooks_ignores_arguments (a1 a2 : list JSONValue) :
  fetchBooks a1 = fetchBooks a2 /\
  forall (rt : Runtime) (st : State),
    run rt (fetchBooks a1) st = run rt (fetchBooks a2) st /\
    log (run rt (fetchBooks a1) st).2
      = log st ++ [ {| method := GET; url := API_URL +:+ "books/" |} ].
Proof.
  split; [reflexivity |].
  intros rt st. rewrite !run_fetchBooks. split; reflexivity.
Qed.

(** C10: an error raised by the transport or by the reader is the very
    error the caller's promise is rejected with. *)
Theorem fetchBooks_error_unchanged
    (rt : Runtime) (args : list JSONValue) (st : State) (e : Error) :
  transport rt (length (log st)) books_request = Some (Rejected e) \/
  (exists res,
      transport rt (length (log st)) books_request = Some (Fulfilled res) /\
      JSON_parse rt (body res) = Rejected e) ->
  (run rt (fetchBooks args) st).1 = Failed e.
Proof.
  intros [He | (res & Hres & He)]; call_outcome.
  - rewrite He. reflexivity.
  - rewrite Hres, He. reflexivity.
Qed.

Lemma fetchBooks_error_unchanged_witness :
  (run (Sample.runtime [Sample.ok "<html>"]) (fetchBooks []) Sample.initial).1
  = Failed Sample.syntax_error.
Proof.
  apply (fetchBooks_error_unchanged
           (Sample.runtime [Sample.ok "<html>"]) [] Sample.initial
           Sample.syntax_error).
  right. exists {| status := 200; body := "<html>" |}.
  split; reflexivity.
Defined.

(** ** Calls made one after another *)

(** C7: over any number of calls the endpoint stays what it was, every
    call sending its request to the endpoint followed by [books/]; no
    call is answered from an earlier payload, each sends a request of its
    own and is settled from the response to that request; and no call
    leaves anything behind, the module-level bindings being after the
    calls what they were before. *)
Theorem session_stateless
    (rt : Runtime) (calls : list (list JSONValue)) (st : State) :
  heap (session rt calls st).2 = heap st /\
  log (session rt calls st).2
    = log st ++ replicate (length calls)
                  {| method := GET; url := API_URL +:+ "books/" |} /\
  (session rt calls st).1
    = imap (fun k _ =>
              outcome_of rt (transport rt (length (log st) + k) books_request))
        calls.
Proof.
  revert st. induction calls as [|args rest IH]; intros st.
  - cbn. rewrite app_nil_r. auto.
  - cbn [session]. rewrite run_fetchBooks.
    specialize (IH {| heap := heap st; log := log st ++ [books_request] |}).
    destruct (session rt rest _) as [os st2]. cbn in *.
    destruct IH as (Hheap & Hlog & Hos).
    split; [exact Hheap |]. split.
    + rewrite Hlog, <- app_assoc. reflexivity.
    + rewrite Nat.add_0_r. f_equal. rewrite Hos.
      apply imap_ext. intros k x _. cbn.
      rewrite length_app. cbn. f_equal. f_equal. lia.
Qed.

(** ** Calls in flight together *)

Section Interleaving.

Variable rt : Runtime.
Variable h : gmap string JSONValue.

Lemma own_snoc s i j n req :
  i <> j -> own s i n -> own (s ++ [(j, req)]) i n.
Proof.
  intros Hne [Hn Huniq]. split.
  - apply lookup_app_l_Some. exact Hn.
  - intros m r Hm. apply lookup_snoc_Some in Hm as [[_ Hm] | [_ Heq]].
    + eapply Huniq. exact Hm.
    + congruence.
Qed.

Lemma own_sent s i :
  (forall m r, s !! m <> Some (i, r)) ->
  own (s ++ [(i, books_request)]) i (length s).
Proof.
  intros Hnone. split.
  - apply list_lookup_middle. reflexivity.
  - intros m r Hm. apply lookup_snoc_Some in Hm as [[_ Hm] | [Heq _]].
    + destruct (Hnone m r Hm).
    + exact Heq.
Qed.

Lemma call_at_snoc s i j req t :
  i <> j -> call_at rt s i t -> call_at rt (s ++ [(j, req)]) i t.
Proof.
  intros Hne Hat.
  destruct Hat as [args Hnone | n Hown | n res Hown Hres | n e Hown He
                  | n res Hown Hres].
  - apply at_start. intros m r Hm.
    apply lookup_snoc_Some in Hm as [[_ Hm] | [_ Heq]].
    + destruct (Hnone m r Hm).
    + congruence.
  - apply at_wait. apply own_snoc; assumption.
  - eapply at_response; [apply own_snoc |]; eassumption.
  - eapply at_rejected; [apply own_snoc |]; eassumption.
  - eapply at_parsed; [apply own_snoc |]; eassumption.
Qed.

Lemma matched_set_task i t c :
  matched rt h c ->
  call_at rt (sent c) i t ->
  matched rt h (set_task i t c).
Proof.
  intros [Hb Ht] Hat. split; [exact Hb |].
  intros j t' Hj. cbn in *.
  apply list_lookup_insert_Some in Hj as [(<- & <- & _) | (_ & Hj)].
  - exact Hat.
  - apply Ht. exact Hj.
Qed.

Lemma turn_matched i c : matched rt h c -> matched rt h (turn rt i c).
Proof.
  intros Hc. pose proof Hc as [Hb Ht]. unfold turn.
  destruct (tasks c !! i) as [t|] eqn:Hi; [| exact Hc].
  destruct (Ht i t Hi) as [args Hnone | n Hown | n res Hown Hres
                          | n e Hown He | n res Hown Hres].
  - cbn. split; [exact Hb |]. cbn. intros j t' Hj.
    apply list_lookup_insert_Some in Hj as [(<- & <- & _) | (Hne & Hj)].
    + apply at_wait. apply own_sent. exact Hnone.
    + apply call_at_snoc; [congruence |]. apply Ht. exact Hj.
  - destruct (transport rt n books_request) as [[res | e] |] eqn:Hn.
    + apply matched_set_task; [exact Hc |].
      apply (at_response rt _ _ n res); assumption.
    + apply matched_set_task; [exact Hc |].
      apply (at_rejected rt _ _ n e); assumption.
    + exact Hc.
  - cbn. apply matched_set_task; [exact Hc |].
    apply (at_parsed rt _ _ n res); assumption.
  - exact Hc.
  - destruct (JSON_parse rt (body res)); exact Hc.
Qed.

Lemma exec_matched sched c : matched rt h c -> matched rt h (exec rt sched c).
Proof.
  revert c. induction sched as [|i sched IH]; intros c Hc.
  - exact Hc.
  - cbn. apply IH. apply turn_matched. exact Hc.
Qed.

Lemma spawn_matched calls : matched rt h (spawn calls h).
Proof.
  split; [reflexivity |]. cbn. intros i t Hi.
  apply list_lookup_fmap_Some in Hi as (args & -> & _).
  apply (at_start rt _ _ args). intros m r Hm.
  rewrite lookup_nil in Hm. discriminate.
Qed.

Lemma matched_settled c i o :
  matched rt h c ->
  promise_of c i = Some o ->
  o <> Pending ->
  exists n, own (sent c) i n /\
            o = outcome_of rt (transport rt n books_request).
Proof.
  intros [_ Ht] Hp Ho. unfold promise_of in Hp.
  destruct (tasks c !! i) as [t|] eqn:Hi; [| discriminate].
  destruct (Ht i t Hi) as [args Hnone | n Hown | n res Hown Hres
                          | n e Hown He | n res Hown Hres];
    cbn in Hp.
  - congruence.
  - congruence.
  - congruence.
  - exists n. split; [exact Hown |]. rewrite He. cbn. congruence.
  - exists n. split; [exact Hown |]. rewrite Hres. cbn.
    destruct (JSON_parse rt (body res)); cbn in Hp; congruence.
Qed.

(** A turn of one call leaves every other call where it was. *)
Lemma turn_other i j c : i <> j -> tasks (turn rt j c) !! i = tasks c !! i.
Proof.
  intros Hne. unfold turn.
  destruct (tasks c !! j) as [[[] |n req k] |]; cbn; try reflexivity;
    try (apply list_lookup_insert_ne; congruence).
  destruct (transport rt n req); cbn; [| reflexivity].
  apply list_lookup_insert_ne. congruence.
Qed.

Lemma turn_own i j n c :
  matched rt h c -> own (sent c) i n -> own (sent (turn rt j c)) i n.
Proof.
  intros [_ Ht] Hown. unfold turn.
  destruct (tasks c !! j) as [t|] eqn:Hj; [| exact Hown].
  destruct (Ht j t Hj) as [args Hnone | n' Hown' | n' res Hown' Hres
                          | n' e Hown' He | n' res Hown' Hres].
  - cbn. apply own_snoc; [| exact Hown].
    intros ->. destruct Hown as [Hn _]. destruct (Hnone _ _ Hn).
  - destruct (transport rt n' books_request); exact Hown.
  - exact Hown.
  - exact Hown.
  - destruct (JSON_parse rt (body res)); exact Hown.
Qed.

Lemma exec_own sched i n c :
  matched rt h c -> own (sent c) i n -> own (sent (exec rt sched c)) i n.
Proof.
  revert c. induction sched as [|j sched IH]; intros c Hc Hown.
  - exact Hown.
  - cbn. apply IH; [apply turn_matched | apply turn_own]; assumption.
Qed.

(** A turn takes a call one stage on, once its request has been
    answered. *)
Lemma turn_progress i t c :
  matched rt h c ->
  tasks c !! i = Some t ->
  (forall n, own (sent c) i n -> transport rt n books_request <> None) ->
  exists t', tasks (turn rt i c) !! i = Some t' /\
             3 `min` S (stage t) <= stage t'.
Proof.
  intros [_ Ht] Hi Hans. unfold turn. rewrite Hi.
  pose proof (lookup_lt_Some _ _ _ Hi) as Hlt.
  destruct (Ht i t Hi) as [args Hnone | n Hown | n res Hown Hres
                          | n e Hown He | n res Hown Hres].
  - cbn. rewrite list_lookup_insert_eq by exact Hlt.
    eexists. split; [reflexivity |]. cbn. lia.
  - specialize (Hans n Hown).
    destruct (transport rt n books_request) as [[res | e] |];
      [| | congruence]; cbn; rewrite list_lookup_insert_eq by exact Hlt;
      (eexists; split; [reflexivity |]); cbn; lia.
  - cbn. rewrite list_lookup_insert_eq by exact Hlt.
    eexists. split; [reflexivity |].
    destruct (JSON_parse rt (body res)); cbn; lia.
  - exists (Running (Throw e)). split; [exact Hi | cbn; lia].
  - destruct (JSON_parse rt (body res)); cbn; rewrite Hi;
      (eexists; split; [reflexivity |]); cbn; lia.
Qed.

Lemma exec_progress sched i t c :
  matched rt h c ->
  tasks c !! i = Some t ->
  (forall n, own (sent (exec rt sched c)) i n ->
             transport rt n books_request <> None) ->
  exists t', tasks (exec rt sched c) !! i = Some t' /\
             3 `min` (stage t + count_occ Nat.eq_dec sched i) <= stage t'.
Proof.
  revert t c. induction sched as [|j sched IH]; intros t c Hc Hi Hans.
  - exists t. split; [exact Hi | cbn [count_occ]; lia].
  - cbn [exec fold_left count_occ] in *.
    destruct (Nat.eq_dec j i) as [-> | Hne].
    + destruct (turn_progress i t c Hc Hi) as (t1 & Hi1 & Hst1).
      { intros n Hown. apply Hans.
        apply exec_own; [apply turn_matched | apply turn_own]; assumption. }
      destruct (IH t1 (turn rt i c)) as (t' & Hi' & Hst');
        [apply turn_matched; exact Hc | exact Hi1 | exact Hans |].
      exists t'. split; [exact Hi' | lia].
    + destruct (IH t (turn rt j c)) as (t' & Hi' & Hst');
        [apply turn_matched; exact Hc
        | rewrite turn_other by congruence; exact Hi
        | exact Hans |].
      exists t'. split; [exact Hi' | lia].
Qed.

(** A call that is given three turns, and whose request is answered,
    settles, whatever becomes of the other calls. *)
Lemma spawned_settles calls sched i :
  i < length calls ->
  3 <= count_occ Nat.eq_dec sched i ->
  (forall n, own (sent (exec rt sched (spawn calls h))) i n ->
             transport rt n books_request <> None) ->
  exists o, promise_of (exec rt sched (spawn calls h)) i = Some o /\
            o <> Pending.
Proof.
  intros Hlt Hturns Hans.
  destruct (lookup_lt_is_Some_2 (tasks (spawn calls h)) i) as [t Hi].
  { cbn. rewrite length_map. exact Hlt. }
  destruct (exec_progress sched i t (spawn calls h) (spawn_matched calls)
              Hi Hans) as (t' & Hi' & Hst).
  unfold promise_of. rewrite Hi'.
  destruct t' as [[] |]; cbn [stage] in Hst; try lia;
    (eexists; split; [reflexivity | discriminate]).
Qed.

End Interleaving.

(** Given the thread three times and no other call about, a call comes
    to what [run] makes of it. *)
Lemma loop_agrees_with_run
    (rt : Runtime) (args : list JSONValue) (h : gmap string JSONValue) :
  promise_of (exec rt [0; 0; 0] (spawn [args] h)) 0
  = Some (run rt (fetchBooks args) {| heap := h; log := [] |}).1.
Proof.
  rewrite run_fetchBooks. cbn. fold books_request.
  destruct (transport rt 0 books_request) as [[res | e] |] eqn:Hn; cbn.
  - destruct (JSON_parse rt (body res)); reflexivity.
  - reflexivity.
  - unfold turn. cbn. fold books_request. rewrite Hn. reflexivity.
Qed.

(** Two calls whose responses are taken up in the order opposite to that
    of the requests: each promise holds the body sent in answer to the
    call's own request. *)
Example replies_out_of_order :
  let c := exec Sample.two_replies Sample.out_of_order
             (spawn [[JString "books/"]; [JString "authors/"]] ∅) in
  sent c = [(0, books_request); (1, books_request)] /\
  promise_of c 0 = Some (Resolved Sample.books_value) /\
  promise_of c 1 = Some (Resolved Sample.authors_value).
Proof. cbn zeta. split; [| split]; vm_compute; reflexivity. Qed.

(** C8: two calls in flight together, made with different paths, under
    any interleaving of their turns.  The bindings they share are never
    changed, and nothing below depends on them; the two calls send
    different requests; a call that has settled is settled from the
    response to the one request it sent itself; and a call settles once
    it has had three turns and its own request has been answered,
    whatever becomes of the other. *)
Theorem concurrent_calls_matched
    (rt : Runtime) (sched : list nat) (p1 p2 : string)
    (h : gmap string JSONValue) :
  p1 <> p2 ->
  let c := exec rt sched (spawn [[JString p1]; [JString p2]] h) in
  bindings c = h /\
  (forall n1 n2, own (sent c) 0 n1 -> own (sent c) 1 n2 -> n1 <> n2) /\
  (forall i o,
      promise_of c i = Some o -> o <> Pending ->
      exists n, own (sent c) i n /\
                o = outcome_of rt (transport rt n books_request)) /\
  (forall i,
      i < 2 -> 3 <= count_occ Nat.eq_dec sched i ->
      (forall n, own (sent c) i n -> transport rt n books_request <> None) ->
      exists o, promise_of c i = Some o /\ o <> Pending).
Proof.
  intros _ c.
  assert (Hc : matched rt h c) by apply exec_matched, spawn_matched.
  split; [apply Hc |]. split; [| split].
  - intros n1 n2 [H1 _] [H2 _] ->. congruence.
  - intros i o. apply matched_settled with (h := h). exact Hc.
  - intros i Hi. apply spawned_settles. exact Hi.
Qed.

Lemma concurrent_calls_matched_witness :
  let c := exec Sample.two_replies Sample.out_of_order
             (spawn [[JString "books/"]; [JString "authors/"]] ∅) in
  bindings c = ∅ /\
  (forall n1 n2, own (sent c) 0 n1 -> own (sent c) 1 n2 -> n1 <> n2) /\
  (forall i o,
      promise_of c i = Some o -> o <> Pending ->
      exists n, own (sent c) i n /\
                o = outcome_of Sample.two_replies
                      (transport Sample.two_replies n books_request)) /\
  (forall i,
      i < 2 -> 3 <= count_occ Nat.eq_dec Sample.out_of_order i ->
      (forall n, own (sent c) i n ->
                 transport Sample.two_replies n books_request <> None) ->
      exists o, promise_of c i = Some o /\ o <> Pending).
Proof.
  apply (concurrent_calls_matched Sample.two_replies Sample.out_of_order
           "books/" "authors/" ∅).
  discriminate.
Defined.

(** * Further properties of [fetchBooks] *)

(** ** What settles a call *)

(** X1: a call resolves only with what the reader made of a response
    that did arrive; the client supplies no value of its own. *)
Theorem fetchBooks_resolved_only_parsed
    (rt : Runtime) (args : list JSONValue) (st : State) (v : JSONValue) :
  (run rt (fetchBooks args) st).1 = Resolved v ->
  exists res,
    transport rt (length (log st)) books_request = Some (Fulfilled res) /\
    JSON_parse rt (body res) = Fulfilled v.
Proof.
  call_outcome.
  destruct (transport rt (length (log st)) books_request) as [[res | e] |];
    [| discriminate | discriminate].
  destruct (JSON_parse rt (body res)) as [v' | e] eqn:Hv; [| discriminate].
  intros [= ->]. exists res. split; [reflexivity | exact Hv].
Qed.

Lemma fetchBooks_resolved_only_parsed_witness :
  exists res,
    transport (Sample.runtime [Sample.ok Sample.books_body]) 0 books_request
      = Some (Fulfilled res) /\
    Sample.parse (body res) = Fulfilled Sample.books_value.
Proof.
  apply (fetchBooks_resolved_only_parsed
           (Sample.runtime [Sample.ok Sample.books_body]) [] Sample.initial
           Sample.books_value).
  reflexivity.
Defined.

(** X2: a call fails only with an error the transport or the reader
    raised; the client throws none of its own, whatever the response. *)
Theorem fetchBooks_failed_only_raised
    (rt : Runtime) (args : list JSONValue) (st : State) (e : Error) :
  (run rt (fetchBooks args) st).1 = Failed e ->
  transport rt (length (log st)) books_request = Some (Rejected e) \/
  exists res,
    transport rt (length (log st)) books_request = Some (Fulfilled res) /\
    JSON_parse rt (body res) = Rejected e.
Proof.
  call_outcome.
  destruct (transport rt (length (log st)) books_request) as [[res | e'] |];
    [| | discriminate].
  - destruct (JSON_parse rt (body res)) as [v | e'] eqn:Hv; [discriminate |].
    intros [= ->]. right. exists res. split; [reflexivity | exact Hv].
  - intros [= ->]. left. reflexivity.
Qed.

Lemma fetchBooks_failed_only_raised_witness :
  transport (Sample.runtime [Sample.ok "Not Found"]) 0 books_request
    = Some (Rejected Sample.syntax_error) \/
  exists res,
    transport (Sample.runtime [Sample.ok "Not Found"]) 0 books_request
      = Some (Fulfilled res) /\
    Sample.parse (body res) = Rejected Sample.syntax_error.
Proof.
  apply (fetchBooks_failed_only_raised
           (Sample.runtime [Sample.ok "Not Found"]) [] Sample.initial
           Sample.syntax_error).
  reflexivity.
Defined.

(** ** Any number of calls in flight *)

Section Requests.

Variable rt : Runtime.
Variable h : gmap string JSONValue.

Lemma turn_tasks_length i c : length (tasks (turn rt i c)) = length (tasks c).
Proof.
  unfold turn.
  destruct (tasks c !! i) as [[[] | n req k] |]; cbn;
    rewrite ?length_insert; try reflexivity.
  destruct (transport rt n req); cbn; rewrite ?length_insert; reflexivity.
Qed.

Lemma exec_tasks_length sched c :
  length (tasks (exec rt sched c)) = length (tasks c).
Proof.
  revert c. induction sched as [|i sched IH]; intros c; [reflexivity |].
  change (exec rt (i :: sched) c) with (exec rt sched (turn rt i c)).
  rewrite IH. apply turn_tasks_length.
Qed.

(** Every request in the log was sent by a call of the loop. *)
Lemma turn_senders i c :
  Forall (fun e => e.1 < length (tasks c)) (sent c) ->
  Forall (fun e => e.1 < length (tasks (turn rt i c))) (sent (turn rt i c)).
Proof.
  intros Hall. rewrite turn_tasks_length. unfold turn.
  destruct (tasks c !! i) as [[[] | n req k] |] eqn:Hi; cbn; try exact Hall.
  - apply Forall_app. split; [exact Hall |].
    constructor; [| constructor]. cbn. eapply lookup_lt_Some. exact Hi.
  - destruct (transport rt n req); exact Hall.
Qed.

Lemma exec_senders sched c :
  Forall (fun e => e.1 < length (tasks c)) (sent c) ->
  Forall (fun e => e.1 < length (tasks (exec rt sched c)))
    (sent (exec rt sched c)).
Proof.
  revert c. induction sched as [|i sched IH]; intros c Hall; [exact Hall |].
  change (exec rt (i :: sched) c) with (exec rt sched (turn rt i c)).
  apply IH, turn_senders. exact Hall.
Qed.

(** An entry of the log is the one request of the call that sent it. *)
Lemma matched_entry c m i r :
  matched rt h c ->
  Forall (fun e => e.1 < length (tasks c)) (sent c) ->
  sent c !! m = Some (i, r) ->
  own (sent c) i m.
Proof.
  intros [_ Ht] Hall Hm.
  pose proof (Forall_lookup_1 _ _ _ _ Hall Hm) as Hlt. cbn in Hlt.
  destruct (lookup_lt_is_Some_2 _ _ Hlt) as [t Hi].
  destruct (Ht i t Hi) as [args Hnone | n Hown | n res Hown Hres
                          | n e Hown He | n res Hown Hres];
    [destruct (Hnone m r Hm) | | | |];
    pose proof Hown as [_ Huniq]; rewrite (Huniq m r Hm); exact Hown.
Qed.

Lemma bounded_NoDup_length (l : list nat) (N : nat) :
  NoDup l -> Forall (fun x => x < N) l -> length l <= N.
Proof.
  intros Hnd Hall. rewrite <- (length_seq N 0).
  apply submseteq_length, NoDup_submseteq; [exact Hnd |].
  intros x Hx. apply elem_of_seq.
  rewrite Forall_forall in Hall. specialize (Hall x Hx). lia.
Qed.



End Requests.

(** X3: the call sets no limit on its wait and sends nothing again.  A
    call whose own request is never answered is pending after any number
    of turns, whatever the interleaving and whatever is answered to the
    other calls. *)
Theorem unanswered_call_stays_pending
    (rt : Runtime) (calls : list (list JSONValue)) (sched : list nat)
    (h : gmap string JSONValue) (i : nat) :
  i < length calls ->
  (forall n, own (sent (exec rt sched (spawn calls h))) i n ->
             transport rt n books_request = None) ->
  promise_of (exec rt sched (spawn calls h)) i = Some Pending.
Proof.
  intros Hlt Hnone.
  assert (Hc : matched rt h (exec rt sched (spawn calls h)))
    by apply exec_matched, spawn_matched.
  destruct (promise_of (exec rt sched (spawn calls h)) i) as [o |] eqn:Hp.
  - destruct o as [| v | e]; [reflexivity | |];
      (destruct (matched_settled rt h _ i _ Hc Hp) as (n & Hown & Ho);
       [discriminate |]);
      rewrite (Hnone n Hown) in Ho; discriminate.
  - unfold promise_of in Hp.
    destruct (tasks (exec rt sched (spawn calls h)) !! i) as [t |] eqn:Hi.
    + destruct t as [[] |]; discriminate.
    + apply lookup_ge_None_1 in Hi. rewrite exec_tasks_length in Hi.
      cbn in Hi. rewrite length_map in Hi. lia.
Qed.

(** The first of two calls is never answered and stays pending, while
    the second is answered and resolves. *)
Lemma unanswered_call_stays_pending_witness :
  promise_of
    (exec (Sample.runtime [None; Sample.ok Sample.books_body])
       [0; 1; 1; 1; 0; 0; 0] (spawn [[]; []] ∅)) 0
  = Some Pending.
Proof.
  apply (unanswered_call_stays_pending
           (Sample.runtime [None; Sample.ok Sample.books_body])
           [[]; []] [0; 1; 1; 1; 0; 0; 0] ∅ 0).
  - cbn. lia.
  - intros n [Hn _]. vm_compute in Hn.
    destruct n as [| [| n]]; [reflexivity | discriminate | discriminate].
Defined.

(** X4: whatever the number of calls in flight and the interleaving, no
    call sends more than one request: the requests sent are at most as
    many as the calls, no two come from the same call, and each is the
    GET of the endpoint followed by [books/]. *)
Theorem calls_send_at_most_once
    (rt : Runtime) (calls : list (list JSONValue)) (sched : list nat)
    (h : gmap string JSONValue) :
  length (sent (exec rt sched (spawn calls h))) <= length calls /\
  NoDup (fst <$> sent (exec rt sched (spawn calls h))) /\
  Forall (fun e => e.1 < length calls /\
                   e.2 = {| method := GET; url := API_URL +:+ "books/" |})
    (sent (exec rt sched (spawn calls h))).
Proof.
  set (c := exec rt sched (spawn calls h)).
  assert (Hc : matched rt h c) by apply exec_matched, spawn_matched.
  assert (Hlen : length (tasks c) = length calls).
  { unfold c. rewrite exec_tasks_length. cbn. apply length_map. }
  assert (Hall : Forall (fun e => e.1 < length (tasks c)) (sent c)).
  { apply exec_senders. constructor. }
  assert (Hnd : NoDup (fst <$> sent c)).
  { apply NoDup_alt. intros m m' i Hm Hm'.
    rewrite list_lookup_fmap in Hm, Hm'.
    destruct (sent c !! m) as [[i1 r1] |] eqn:Hm1; [| discriminate].
    destruct (sent c !! m') as [[i2 r2] |] eqn:Hm2; [| discriminate].
    cbn in Hm, Hm'. injection Hm as ->. injection Hm' as ->.
    destruct (matched_entry rt h c m i r1 Hc Hall Hm1) as [_ Huniq].
    symmetry. eapply Huniq. exact Hm2. }
  split; [| split].
  - rewrite <- (length_fmap fst), <- Hlen.
    apply bounded_NoDup_length; [exact Hnd |].
    apply Forall_fmap. exact Hall.
  - exact Hnd.
  - apply Forall_lookup. intros m [i r] Hm. cbn.
    split.
    + rewrite <- Hlen. apply (Forall_lookup_1 _ _ _ _ Hall Hm).
    + destruct (matched_entry rt h c m i r Hc Hall Hm) as [Hn _].
      fold books_request. congruence.
Qed.



(** X6: against a server that answers every request for the books alike,
    a call that has settled has the outcome of a call made alone,
    whatever the number of calls in flight and the interleaving. *)
Theorem settled_as_alone
    (rt : Runtime) (calls : list (list JSONValue)) (sched : list nat)
    (h : gmap string JSONValue) (i : nat) (o : Outcome JSONValue) :
  (forall n, transport rt n books_request = transport rt 0 books_request) ->
  promise_of (exec rt sched (spawn calls h)) i = Some o ->
  o <> Pending ->
  o = (run rt (fetchBooks []) {| heap := h; log := [] |}).1.
Proof.
  intros Hsame Hp Ho.
  assert (Hc : matched rt h (exec rt sched (spawn calls h)))
    by apply exec_matched, spawn_matched.
  destruct (matched_settled rt h _ i o Hc Hp Ho) as (n & _ & ->).
  rewrite run_fetchBooks. cbn. rewrite Hsame. reflexivity.
Qed.

Lemma settled_as_alone_witness :
  Resolved Sample.books_value
  = (run {| transport := fun _ _ => Sample.ok Sample.books_body;
            JSON_parse := Sample.parse |}
       (fetchBooks []) {| heap := ∅; log := [] |}).1.
Proof.
  apply (settled_as_alone
           {| transport := fun _ _ => Sample.ok Sample.books_body;
              JSON_parse := Sample.parse |}
           [[]; [JString "authors/"]; []] [2; 0; 2; 1; 2] ∅ 2).
  - intros n. reflexivity.
  - vm_compute. reflexivity.
  - discriminate.
Defined.
